(** * 2D feature tracking: keypoint detection, description and matching

    A shallow embedding of [2D_Feature_Tracking/src/matching2D_Student.cpp].
    The five functions of that file configure OpenCV detectors, extractors
    and matchers and call them; the code of their own is the selection of a
    variant by name, the ratio test on 2-nearest-neighbour matches and the
    suppression loop over the Harris response matrix.

    Conventions.
    - [int] is [Z].  The one product of two run-time [int]s, the pixel
      count [img.rows * img.cols], is taken modulo 2^32 into the range of
      [int]: signed overflow is undefined in C++, and the compiled code
      wraps.  Loop counters and the constants stay within the range.
    - [float] and [double] values are Rocq's primitive binary64 floats.
      Every binary32 value is a binary64 value, and C++ widens [float] to
      [double] before it compares or multiplies with a [double].  Where the
      code converts an [int] to [float] (the fields of a [cv::KeyPoint] and
      of a [cv::Point2f]) the model rounds the integer to the 24-bit
      significand of binary32, to nearest with ties to even; the conversion
      of an [int] to [double] is exact.
    - [std::string] is [string]; [s.compare(t) == 0] is [String.eqb].
    - A [std::vector] passed by reference is a list that the function takes
      and gives back; [push_back] appends at the end.
    - The calls into OpenCV are the variables of the section [Tracking].
    - Console and window output is a trace of events; the elapsed time that
      the code prints is left out of the events. *)

From Stdlib Require Import ZArith List String Bool Floats Uint63 Lia.
Import ListNotations.

Set Warnings "-inexact-float".

Open Scope Z_scope.

(** ** Numbers *)

Definition INT_MIN : Z := - 2 ^ 31.
Definition INT_MAX : Z := 2 ^ 31 - 1.

(** The value that a 32-bit two's complement [int] holds for [z]. *)
Definition wrap_int (z : Z) : Z := (z + 2 ^ 31) mod 2 ^ 32 - 2 ^ 31.

(** The product [a * b] of two [int]s. *)
Definition int_mul (a b : Z) : Z := wrap_int (a * b).

(** Conversion of an [int] to [double]: exact, an [int] has at most 31
    significant bits. *)
Definition float_of_int (z : Z) : float :=
  if z <? 0 then PrimFloat.opp (PrimFloat.of_uint63 (Uint63.of_Z (- z)))
  else PrimFloat.of_uint63 (Uint63.of_Z z).

(** The integer nearest to [z] that has at most 24 significant bits, ties
    going to the even significand: what binary32 can hold of an [int]. *)
Definition round_to_binary32 (z : Z) : Z :=
  let a := Z.abs z in
  let excess := Z.log2 a + 1 - 24 in
  if excess <=? 0 then z
  else
    let q := a / 2 ^ excess in
    let r := a mod 2 ^ excess in
    let half := 2 ^ (excess - 1) in
    let q' := if r <? half then q
              else if half <? r then q + 1
              else if Z.even q then q else q + 1 in
    Z.sgn z * (q' * 2 ^ excess).

(** Conversion of an [int] to [float]. *)
Definition float32_of_int (z : Z) : float :=
  float_of_int (round_to_binary32 z).

(** The cast [(int)f]: truncation toward zero.  Out of the range of [int]
    (and for NaN and the infinities) the cast is undefined in C++; the model
    gives what the x86 conversion instruction gives there, [INT_MIN]. *)
Definition int_of_float (f : float) : Z :=
  match Prim2SF f with
  | S754_zero _ => 0
  | S754_finite s m e =>
      let a := if 0 <=? e then Z.pos m * 2 ^ e else Z.pos m / 2 ^ (- e) in
      let v := if s then - a else a in
      if (INT_MIN <=? v) && (v <=? INT_MAX) then v else INT_MIN
  | _ => INT_MIN
  end.

(** [std::max(a, b)] is [(a < b) ? b : a]. *)
Definition fmax (a b : float) : float :=
  if PrimFloat.ltb a b then b else a.

(** [for (int i = 0; i < n; ++i)] visits [range n]. *)
Definition range (n : Z) : list Z :=
  map Z.of_nat (seq 0 (Z.to_nat n)).

(** ** Data of the library *)

Record Point2f := mkPoint2f { x : float; y : float }.

Record KeyPoint := mkKeyPoint {
  pt : Point2f;
  size : float;
  angle : float;
  response : float;
  octave : Z;
  class_id : Z
}.

(** The default constructor [cv::KeyPoint()]. *)
Definition KeyPoint_default : KeyPoint :=
  {| pt := mkPoint2f 0 0; size := 0; angle := (-1)%float; response := 0;
     octave := 0; class_id := -1 |}.

Definition set_pt (p : Point2f) (k : KeyPoint) : KeyPoint :=
  {| pt := p; size := size k; angle := angle k; response := response k;
     octave := octave k; class_id := class_id k |}.

Definition set_size (s : float) (k : KeyPoint) : KeyPoint :=
  {| pt := pt k; size := s; angle := angle k; response := response k;
     octave := octave k; class_id := class_id k |}.

Definition set_response (r : float) (k : KeyPoint) : KeyPoint :=
  {| pt := pt k; size := size k; angle := angle k; response := r;
     octave := octave k; class_id := class_id k |}.

Record DMatch := mkDMatch {
  queryIdx : Z;
  trainIdx : Z;
  imgIdx : Z;
  distance : float
}.

(** A [cv::Mat] read through [at<float>(row, col)]. *)
Record Mat := mkMat {
  rows : Z;
  cols : Z;
  at_ : Z -> Z -> float
}.

Inductive NormType := NORM_HAMMING | NORM_L2.

(** What [cv::Ptr<cv::DescriptorMatcher>] points to after configuration. *)
Inductive Matcher :=
| BFMatcher_create (normType : NormType) (crossCheck : bool)
| FlannBasedMatcher_create
| FlannBasedMatcher_Lsh (table_number key_size multi_probe_level : Z).

(** What a [cv::Ptr<cv::FeatureDetector>] or
    [cv::Ptr<cv::DescriptorExtractor>] points to, by the [create] call that
    made it. *)
Inductive Feature2D :=
| FastFeatureDetector_create
| BRISK_create
| BRISK_create_with (threshold octaves : Z) (patternScale : float)
| ORB_create
| AKAZE_create
| SIFT_create
| BriefDescriptorExtractor_create
| FREAK_create.

(** ** Exceptions, outcomes and output *)

Inductive exception := invalid_argument (what : string).

(** How a call ends.  [S] is the state of the reference parameters (and of
    the output trace) that the caller sees afterwards.  [NullDereference] is
    a member call through a [cv::Ptr] that holds no object. *)
Inductive outcome (S : Type) :=
| Returns (s : S)
| Throws (e : exception) (s : S)
| NullDereference.

Arguments Returns {S} s.
Arguments Throws {S} e s.
Arguments NullDereference {S}.

Definition outcome_map {S T : Type} (f : S -> T) (o : outcome S) : outcome T :=
  match o with
  | Returns s => Returns (f s)
  | Throws e s => Throws e (f s)
  | NullDereference => NullDereference
  end.

Definition throws {S : Type} (o : outcome S) : bool :=
  match o with
  | Throws (invalid_argument _) _ => true
  | _ => false
  end.

Inductive Event :=
| NamedWindow (name : string) (flags : Z)
| ImShow (name : string) (image : Mat)
| WaitKey (delay : Z)
| CoutDetection (detector : string) (n : nat)
| CoutExtraction (descriptorType : string).

Definition Trace := list Event.

Definition vis_events (windowName : string) (flags : Z) (image : Mat) : Trace :=
  [NamedWindow windowName flags; ImShow windowName image; WaitKey 0].

(** ** The functions of matching2D_Student.cpp *)

Section Tracking.

(** [matcher->match(descSource, descRef, matches)]: the library receives the
    vector by reference, so its result may depend on what the vector held. *)
Variable matcher_match : Matcher -> Mat -> Mat -> list DMatch -> list DMatch.

(** [matcher->knnMatch(descSource, descRef, kmatches, k)] on a fresh
    [kmatches]. *)
Variable matcher_knnMatch : Matcher -> Mat -> Mat -> Z -> list (list DMatch).

(** [extractor->compute(img, keypoints, descriptors)]. *)
Variable feature_compute :
  Feature2D -> Mat -> list KeyPoint -> Mat -> list KeyPoint * Mat.

(** [detector->detect(img, keypoints)]. *)
Variable feature_detect : Feature2D -> Mat -> list KeyPoint -> list KeyPoint.

(** [cv::goodFeaturesToTrack(img, corners, maxCorners, qualityLevel,
    minDistance, cv::Mat(), blockSize, false, k)] on a fresh [corners]. *)
Variable goodFeaturesToTrack :
  Mat -> Z -> float -> float -> Z -> bool -> float -> list Point2f.

(** [cv::cornerHarris(img, dst, blockSize, apertureSize, k, BORDER_DEFAULT)]. *)
Variable cornerHarris : Mat -> Z -> Z -> float -> Mat.

(** [cv::normalize(dst, dst_norm, alpha, beta, NORM_MINMAX, CV_32FC1, Mat())]. *)
Variable normalize : Mat -> float -> float -> Mat.

Variable convertScaleAbs : Mat -> Mat.

(** [cv::drawKeypoints(img, keypoints, visImage, Scalar::all(-1),
    DRAW_RICH_KEYPOINTS)]: the keypoints are a [const] argument. *)
Variable drawKeypoints : Mat -> list KeyPoint -> Mat.

(** [cv::KeyPoint::overlap(kp1, kp2)]. *)
Variable overlap : KeyPoint -> KeyPoint -> float.

(** *** matchDescriptors *)

Definition crossCheck : bool := false.

(** Lines 14-49: the matcher, or the exception thrown while choosing it. *)
Definition configure_matcher (descriptorType matcherType : string)
  : Matcher + exception :=
  if (matcherType =? "MAT_BF")%string then
    if (descriptorType =? "DES_BINARY")%string then
      inl (BFMatcher_create NORM_HAMMING crossCheck)
    else if (descriptorType =? "DES_HOG")%string then
      inl (BFMatcher_create NORM_L2 crossCheck)
    else
      inr (invalid_argument ("invalid descriptorType " ++ descriptorType)%string)
  else if (matcherType =? "MAT_FLANN")%string then
    if (descriptorType =? "DES_HOG")%string then
      inl FlannBasedMatcher_create
    else if (descriptorType =? "DES_BINARY")%string then
      inl (FlannBasedMatcher_Lsh 12 20 2)
    else
      inr (invalid_argument ("invalid descriptorType " ++ descriptorType)%string)
  else
    inr (invalid_argument ("invalid matcherType " ++ matcherType)%string).

Definition minDistanceRatio : float := 0.8.

(** Lines 65-68, the body of the loop over [kmatches].  The size test guards
    both subscripts, as [&&] does in the source. *)
Definition ratio_step (matches kmatch : list DMatch) : list DMatch :=
  if (List.length kmatch =? 2)%nat then
    match nth_error kmatch 0, nth_error kmatch 1 with
    | Some m0, Some m1 =>
        if (distance m0 <? minDistanceRatio * distance m1)%float
        then matches ++ [m0]
        else matches
    | _, _ => matches
    end
  else matches.

(** Lines 63-69. *)
Definition ratio_filter (kmatches : list (list DMatch)) (matches : list DMatch)
  : list DMatch :=
  fold_left ratio_step kmatches matches.

Definition matchDescriptors (kPtsSource kPtsRef : list KeyPoint)
  (descSource descRef : Mat) (matches : list DMatch)
  (descriptorType matcherType selectorType : string)
  : outcome (list DMatch) :=
  match configure_matcher descriptorType matcherType with
  | inr e => Throws e matches
  | inl matcher =>
      if (selectorType =? "SEL_NN")%string then
        Returns (matcher_match matcher descSource descRef matches)
      else if (selectorType =? "SEL_KNN")%string then
        let kmatches := matcher_knnMatch matcher descSource descRef 2 in
        Returns (ratio_filter kmatches matches)
      else
        Throws (invalid_argument ("invalid selectorType " ++ selectorType)%string)
               matches
  end.

(** *** descKeypoints *)

(** Lines 82-111.  [None] is the [cv::Ptr] that was never assigned. *)
Definition select_extractor (descriptorType : string) : option Feature2D :=
  if (descriptorType =? "BRISK")%string then
    let threshold := 30 in
    let octaves := 3 in
    let patternScale := 1.0%float in
    Some (BRISK_create_with threshold octaves patternScale)
  else if (descriptorType =? "BRIEF")%string then
    Some BriefDescriptorExtractor_create
  else if (descriptorType =? "ORB")%string then Some ORB_create
  else if (descriptorType =? "FREAK")%string then Some FREAK_create
  else if (descriptorType =? "AKAZE")%string then Some AKAZE_create
  else if (descriptorType =? "SIFT")%string then Some SIFT_create
  else None.

Definition descKeypoints (keypoints : list KeyPoint) (img descriptors : Mat)
  (descriptorType : string) (out : Trace)
  : outcome (list KeyPoint * Mat * Trace) :=
  match select_extractor descriptorType with
  | None => NullDereference
  | Some extractor =>
      let (keypoints', descriptors') :=
        feature_compute extractor img keypoints descriptors in
      Returns (keypoints', descriptors', out ++ [CoutExtraction descriptorType])
  end.

(** *** detKeypointsShiTomasi *)

Definition shiTomasi_blockSize : Z := 4.
Definition shiTomasi_maxOverlap : float := 0.0.
Definition shiTomasi_minDistance : float :=
  ((1.0 - shiTomasi_maxOverlap) * float_of_int shiTomasi_blockSize)%float.
Definition shiTomasi_maxCorners (img : Mat) : Z :=
  int_of_float
    (float_of_int (int_mul (rows img) (cols img)) /
     fmax 1.0 shiTomasi_minDistance)%float.
Definition shiTomasi_qualityLevel : float := 0.01.
Definition shiTomasi_k : float := 0.04.

(** Lines 141-144, the body of the loop over the corners. *)
Definition add_corner (keypoints : list KeyPoint) (it : Point2f) : list KeyPoint :=
  let newKeyPoint := KeyPoint_default in
  let newKeyPoint := set_pt (mkPoint2f (x it) (y it)) newKeyPoint in
  let newKeyPoint := set_size (float32_of_int shiTomasi_blockSize) newKeyPoint in
  keypoints ++ [newKeyPoint].

Definition detKeypointsShiTomasi (keypoints : list KeyPoint) (img : Mat)
  (bVis : bool) (out : Trace) : list KeyPoint * Trace :=
  let corners :=
    goodFeaturesToTrack img (shiTomasi_maxCorners img) shiTomasi_qualityLevel
      shiTomasi_minDistance shiTomasi_blockSize false shiTomasi_k in
  let keypoints := fold_left add_corner corners keypoints in
  let out := out ++ [CoutDetection "Shi-Tomasi" (List.length keypoints)] in
  if bVis then
    let visImage := drawKeypoints img keypoints in
    (keypoints, out ++ vis_events "Shi-Tomasi Corner Detector Results" 6 visImage)
  else (keypoints, out).

(** *** detKeypointsHarris *)

Definition harris_blockSize : Z := 2.
Definition harris_apertureSize : Z := 3.
Definition harris_minResponse : Z := 100.
Definition harris_k : float := 0.04.
Definition harris_maxOverlap : float := 0.0.

(** Lines 198-201: the keypoint of pixel (row [j], column [i]). *)
Definition harris_keypoint (i j response : Z) : KeyPoint :=
  let newKeyPoint := KeyPoint_default in
  let newKeyPoint :=
    set_pt (mkPoint2f (float32_of_int i) (float32_of_int j)) newKeyPoint in
  let newKeyPoint := set_size (float32_of_int (2 * harris_apertureSize)) newKeyPoint in
  set_response (float32_of_int response) newKeyPoint.

(** Lines 203-215: the scan of the keypoints kept so far, from the iterator
    position on.  It gives [foundOverlap] and the vector after the scan;
    the assignment [*it = newKeyPoint] is followed by [break]. *)
Fixpoint suppress (newKeyPoint : KeyPoint) (foundOverlap : bool)
  (keypoints : list KeyPoint) : bool * list KeyPoint :=
  match keypoints with
  | [] => (foundOverlap, [])
  | it :: rest =>
      let kptOverlap := overlap newKeyPoint it in
      if (harris_maxOverlap <? kptOverlap)%float then
        if (response it <? response newKeyPoint)%float then
          (true, newKeyPoint :: rest)
        else
          let (found, rest') := suppress newKeyPoint true rest in
          (found, it :: rest')
      else
        let (found, rest') := suppress newKeyPoint foundOverlap rest in
        (found, it :: rest')
  end.

(** Lines 195-220, the body of the inner loop. *)
Definition harris_pixel (dst_norm : Mat) (j : Z) (keypoints : list KeyPoint)
  (i : Z) : list KeyPoint :=
  let response := int_of_float (at_ dst_norm j i) in
  if harris_minResponse <? response then
    let newKeyPoint := harris_keypoint i j response in
    let (foundOverlap, keypoints) := suppress newKeyPoint false keypoints in
    if negb foundOverlap then keypoints ++ [newKeyPoint] else keypoints
  else keypoints.

Definition harris_row (dst_norm : Mat) (keypoints : list KeyPoint) (j : Z)
  : list KeyPoint :=
  fold_left (harris_pixel dst_norm j) (range (cols dst_norm)) keypoints.

(** Lines 186-222: clearing the vector and the two loops. *)
Definition harris_nms (dst_norm : Mat) (keypoints : list KeyPoint)
  : list KeyPoint :=
  let keypoints :=
    if negb (match keypoints with [] => true | _ => false end)
    then [] else keypoints in
  fold_left (harris_row dst_norm) (range (rows dst_norm)) keypoints.

Definition detKeypointsHarris (keypoints : list KeyPoint) (img : Mat)
  (bVis : bool) (out : Trace) : list KeyPoint * Trace :=
  let dst := cornerHarris img harris_blockSize harris_apertureSize harris_k in
  let dst_norm := normalize dst 0 255 in
  let dst_norm_scaled := convertScaleAbs dst_norm in
  let out :=
    if bVis then
      out ++ vis_events "Harris Corner Detector Response Matrix" 4 dst_norm_scaled
    else out in
  let keypoints := harris_nms dst_norm keypoints in
  let out := out ++ [CoutDetection "Harris" (List.length keypoints)] in
  if bVis then
    let visImage := drawKeypoints dst_norm_scaled keypoints in
    (keypoints, out ++ vis_events "Harris corner detection results" 5 visImage)
  else (keypoints, out).

(** *** detKeypointsModern *)

(** Lines 241-264. *)
Definition select_detector (detectorType : string) : Feature2D + exception :=
  if (detectorType =? "FAST")%string then inl FastFeatureDetector_create
  else if (detectorType =? "BRISK")%string then inl BRISK_create
  else if (detectorType =? "ORB")%string then inl ORB_create
  else if (detectorType =? "AKAZE")%string then inl AKAZE_create
  else if (detectorType =? "SIFT")%string then inl SIFT_create
  else inr (invalid_argument ("invalid detectorType " ++ detectorType)%string).

Definition detKeypointsModern (keypoints : list KeyPoint) (img : Mat)
  (detectorType : string) (bVis : bool) (out : Trace)
  : outcome (list KeyPoint * Trace) :=
  match select_detector detectorType with
  | inr e => Throws e (keypoints, out)
  | inl detector =>
      let keypoints := feature_detect detector img keypoints in
      let out := out ++ [CoutDetection detectorType (List.length keypoints)] in
      if bVis then
        let visImage := drawKeypoints img keypoints in
        Returns (keypoints,
                 out ++ vis_events (detectorType ++ " keypoint detection results")%string
                          6 visImage)
      else Returns (keypoints, out)
  end.

(** *** Vocabulary of the properties *)

(** The ratio test as the specification words it: the best match of a
    2-element result whose first distance is below 0.8 times the second. *)
Definition passes_ratio_test (kmatch : list DMatch) : bool :=
  match kmatch with
  | [m0; m1] => (distance m0 <? 0.8 * distance m1)%float
  | _ => false
  end.

Definition best_match (kmatch : list DMatch) : list DMatch :=
  match kmatch with
  | m0 :: _ => [m0]
  | [] => []
  end.

Definition ratio_filter_spec (kmatches : list (list DMatch)) : list DMatch :=
  flat_map best_match (filter passes_ratio_test kmatches).

(** Two keypoints overlap when [cv::KeyPoint::overlap] exceeds
    [maxOverlap = 0.0]. *)
Definition overlapping (a b : KeyPoint) : bool :=
  (harris_maxOverlap <? overlap a b)%float.

(** No two entries at distinct positions of the vector overlap. *)
Definition overlap_free (keypoints : list KeyPoint) : Prop :=
  forall (m n : nat) (a b : KeyPoint),
    m <> n ->
    nth_error keypoints m = Some a ->
    nth_error keypoints n = Some b ->
    overlapping a b = false.

(** A keypoint that the Harris detector makes from a pixel of [dst_norm]
    whose truncated response exceeds [minResponse]. *)
Definition harris_corner (dst_norm : Mat) (k : KeyPoint) : Prop :=
  exists i j : Z,
    0 <= j < rows dst_norm /\ 0 <= i < cols dst_norm /\
    harris_minResponse < int_of_float (at_ dst_norm j i) /\
    k = harris_keypoint i j (int_of_float (at_ dst_norm j i)).

(** A vector extends another one: the old entries are a prefix of it. *)
Definition extends {A : Type} (old new : list A) : Prop :=
  exists added : list A, new = old ++ added.

Definition supported_matcherType (s : string) : bool :=
  ((s =? "MAT_BF") || (s =? "MAT_FLANN"))%string.

Definition supported_descriptorType (s : string) : bool :=
  ((s =? "DES_BINARY") || (s =? "DES_HOG"))%string.

Definition supported_selectorType (s : string) : bool :=
  ((s =? "SEL_NN") || (s =? "SEL_KNN"))%string.

Definition extractor_names : list string :=
  ["BRISK"; "BRIEF"; "ORB"; "FREAK"; "AKAZE"; "SIFT"]%string.

Definition detector_names : list string :=
  ["FAST"; "BRISK"; "ORB"; "AKAZE"; "SIFT"]%string.

(** The keypoint that [detKeypointsShiTomasi] makes of a corner. *)
Definition corner_keypoint (c : Point2f) : KeyPoint :=
  {| pt := c; size := 4; angle := (-1)%float; response := 0;
     octave := 0; class_id := -1 |}.

(** ** Concrete data to run the model on *)

(** A response matrix given by its rows. *)
Definition mat_of_rows (data : list (list float)) : Mat :=
  {| rows := Z.of_nat (List.length data);
     cols := Z.of_nat (List.length (hd [] data));
     at_ := fun j i => nth (Z.to_nat i) (nth (Z.to_nat j) data []) 0%float |}.

(** A normalized response with three isolated peaks: 255 at column 0 and
    150 at column 8 of row 0, and 200 at column 4 of row 1. *)
Definition three_peaks : Mat :=
  mat_of_rows
    [[255; 0; 0; 0; 0; 0; 0; 0; 150];
     [0; 0; 0; 0; 200; 0; 0; 0; 0]]%float.

Definition peak_A : KeyPoint := harris_keypoint 0 0 255.
Definition peak_B : KeyPoint := harris_keypoint 8 0 150.
Definition peak_C : KeyPoint := harris_keypoint 4 1 200.

(** Modelled from the library's documentation of [cv::KeyPoint::overlap]:
    the ratio of the intersection area to the union area of the two discs
    of diameter [size] around [pt].  The suppression loop compares that
    ratio with 0.0 only, and the ratio is positive exactly when both radii
    are positive and the centres are closer than the sum of the radii.
    [disc_overlap] is 1 in that case and 0 otherwise: it has the sign of the
    library's value, not its magnitude. *)
Definition disc_overlap (kp1 kp2 : KeyPoint) : float :=
  let a := (size kp1 * 0.5)%float in
  let b := (size kp2 * 0.5)%float in
  let dx := (x (pt kp1) - x (pt kp2))%float in
  let dy := (y (pt kp1) - y (pt kp2))%float in
  if ((0 <? a) && (0 <? b) && (dx * dx + dy * dy <? (a + b) * (a + b)))%float
  then 1%float else 0%float.

(** Stand-ins for the image pipeline, to run [detKeypointsHarris] on a given
    response matrix: the image is taken to be its own normalized response. *)
Definition response_as_image (img : Mat) (blockSize apertureSize : Z) (k : float)
  : Mat := img.

Definition normalized_already (dst : Mat) (alpha beta : float) : Mat := dst.

Definition same_image (m : Mat) : Mat := m.

Definition draw_nothing (img : Mat) (keypoints : list KeyPoint) : Mat := img.

(** A stand-in for the corner detector, to run [detKeypointsShiTomasi]: it
    finds one corner, at the origin. *)
Definition corner_at_origin (img : Mat) (maxCorners : Z)
  (qualityLevel minDistance : float) (blockSize : Z) (useHarrisDetector : bool)
  (k : float) : list Point2f := [mkPoint2f 0 0].

(** ** The scan of the response matrix, pixel by pixel *)

(** A pixel is the pair (column [i], row [j]), as in [cv::Point2f(i, j)]. *)
Definition pixel_response (dst_norm : Mat) (p : Z * Z) : Z :=
  int_of_float (at_ dst_norm (snd p) (fst p)).

Definition above_minResponse (dst_norm : Mat) (p : Z * Z) : bool :=
  harris_minResponse <? pixel_response dst_norm p.

Definition pixel_keypoint (dst_norm : Mat) (p : Z * Z) : KeyPoint :=
  harris_keypoint (fst p) (snd p) (pixel_response dst_norm p).

(** The pixels in the order in which the two loops of lines 191-193 visit
    them: row by row, and within a row column by column. *)
Definition scan_order (dst_norm : Mat) : list (Z * Z) :=
  flat_map (fun j => map (fun i => (i, j)) (range (cols dst_norm)))
           (range (rows dst_norm)).

(** The pixels that pass the test of line 196, in scan order. *)
Definition corner_pixels (dst_norm : Mat) : list (Z * Z) :=
  filter (above_minResponse dst_norm) (scan_order dst_norm).

(** The loop body applied to the pixels of a list, one after the other. *)
Definition scan (dst_norm : Mat) (pixels : list (Z * Z))
  (keypoints : list KeyPoint) : list KeyPoint :=
  fold_left (fun kps p => harris_pixel dst_norm (snd p) kps (fst p))
            pixels keypoints.

(** A kept keypoint that the new one overlaps and that is strictly weaker:
    the condition under which line 211 overwrites it. *)
Definition overwritten_by (newKeyPoint it : KeyPoint) : bool :=
  overlapping newKeyPoint it && (response it <? response newKeyPoint)%float.

Definition is_window_event (e : Event) : bool :=
  match e with
  | NamedWindow _ _ | ImShow _ _ | WaitKey _ => true
  | CoutDetection _ _ | CoutExtraction _ => false
  end.

(** [replace_first p new l] puts [new] in the place of the first entry of
    [l] that satisfies [p], and is [l] when there is none. *)
Fixpoint replace_first {A : Type} (p : A -> bool) (new : A) (l : list A)
  : list A :=
  match l with
  | [] => []
  | a :: rest => if p a then new :: rest else a :: replace_first p new rest
  end.

(** Two peaks of one row, 8 pixels apart. *)
Definition two_peaks : Mat :=
  mat_of_rows [[255; 0; 0; 0; 0; 0; 0; 0; 150]]%float.

(** The peaks of [three_peaks] with the weakest one scanned last. *)
Definition descending_peaks : Mat :=
  mat_of_rows
    [[255; 0; 0; 0; 0; 0; 0; 0; 200];
     [0; 0; 0; 0; 150; 0; 0; 0; 0]]%float.

(** ** Properties *)

(** Case analysis on the first string comparison of the goal; [tac] closes
    the case where the strings are equal. *)
Ltac string_case tac :=
  match goal with
  | |- context [(?a =? ?b)%string] =>
      destruct (String.eqb_spec a b) as [->|?]; [tac|]
  end.

(** Takes the SEL_KNN branch of the selector tests. *)
Ltac knn_branch :=
  change ("SEL_KNN" =? "SEL_NN")%string with false;
  change ("SEL_KNN" =? "SEL_KNN")%string with true;
  cbv iota.

(** *** The loop counter *)

Lemma range_spec (n i : Z) : In i (range n) <-> 0 <= i < n.
Proof.
  unfold range. rewrite in_map_iff. split.
  - intros (k & <- & Hk). apply in_seq in Hk. lia.
  - intros Hi. exists (Z.to_nat i). split; [lia|]. apply in_seq. lia.
Qed.

(** *** The ratio test *)

Lemma ratio_step_spec (matches kmatch : list DMatch) :
  ratio_step matches kmatch =
  matches ++ (if passes_ratio_test kmatch then best_match kmatch else []).
Proof.
  unfold ratio_step, minDistanceRatio.
  destruct kmatch as [|m0 [|m1 [|m2 more]]]; simpl;
    try (now rewrite app_nil_r).
  destruct (distance m0 <? 0.8 * distance m1)%float;
    simpl; now rewrite ?app_nil_r.
Qed.

Lemma passes_ratio_test_iff (kmatch : list DMatch) :
  passes_ratio_test kmatch = true <->
  exists m0 m1 : DMatch,
    kmatch = [m0; m1] /\ (distance m0 <? 0.8 * distance m1)%float = true.
Proof.
  split.
  - destruct kmatch as [|m0 [|m1 [|m2 more]]]; simpl; try discriminate.
    intros Hlt. now exists m0, m1.
  - intros (m0 & m1 & -> & Hlt). exact Hlt.
Qed.

Lemma ratio_filter_appends (kmatches : list (list DMatch)) :
  forall matches : list DMatch,
    ratio_filter kmatches matches = matches ++ ratio_filter_spec kmatches.
Proof.
  unfold ratio_filter, ratio_filter_spec.
  induction kmatches as [|kmatch kmatches IH]; intros matches; simpl.
  - now rewrite app_nil_r.
  - rewrite IH, ratio_step_spec, <- app_assoc. f_equal.
    destruct (passes_ratio_test kmatch); reflexivity.
Qed.

(** C2.  With selector SEL_KNN and a matcher that could be configured,
    [matchDescriptors] returns the old matches followed by the best match
    [kmatch[0]] of exactly those elements of the 2-nearest-neighbour result
    that have two entries with [kmatch[0].distance < 0.8 * kmatch[1].distance],
    in the order of that result, and by nothing else; when the matcher cannot
    be configured it throws and appends nothing.  Element by element: the
    loop body appends [kmatch[0]] if and only if [kmatch] has exactly two
    entries that pass the test, and otherwise leaves the matches alone. *)
Theorem matchDescriptors_knn_ratio_test
  (kPtsSource kPtsRef : list KeyPoint) (descSource descRef : Mat)
  (matches : list DMatch) (descriptorType matcherType : string) :
  matchDescriptors kPtsSource kPtsRef descSource descRef matches
    descriptorType matcherType "SEL_KNN" =
  match configure_matcher descriptorType matcherType with
  | inl matcher =>
      Returns (matches ++
               flat_map best_match
                 (filter passes_ratio_test
                    (matcher_knnMatch matcher descSource descRef 2)))
  | inr e => Throws e matches
  end /\
  forall kmatch : list DMatch,
    (passes_ratio_test kmatch = true <->
     exists m0 m1 : DMatch,
       kmatch = [m0; m1] /\ (distance m0 <? 0.8 * distance m1)%float = true) /\
    ratio_step matches kmatch =
      (if passes_ratio_test kmatch then matches ++ firstn 1 kmatch else matches).
Proof.
  split.
  - unfold matchDescriptors.
    destruct (configure_matcher descriptorType matcherType) as [matcher|e];
      [|reflexivity].
    knn_branch. now rewrite ratio_filter_appends.
  - intros kmatch. split; [apply passes_ratio_test_iff|].
    rewrite ratio_step_spec.
    destruct kmatch as [|m0 [|m1 [|m2 more]]]; simpl; try apply app_nil_r.
    destruct (distance m0 <? 0.8 * distance m1)%float; [reflexivity|].
    apply app_nil_r.
Qed.

(** *** Exceptions of matchDescriptors *)

Lemma configure_matcher_supported (descriptorType matcherType : string) :
  match configure_matcher descriptorType matcherType with
  | inl _ =>
      supported_matcherType matcherType = true /\
      supported_descriptorType descriptorType = true
  | inr _ =>
      supported_matcherType matcherType = false \/
      supported_descriptorType descriptorType = false
  end.
Proof.
  unfold configure_matcher, supported_matcherType, supported_descriptorType.
  destruct (matcherType =? "MAT_BF")%string;
    destruct (matcherType =? "MAT_FLANN")%string;
    destruct (descriptorType =? "DES_BINARY")%string;
    destruct (descriptorType =? "DES_HOG")%string; simpl; auto.
Qed.

(** C3.  [matchDescriptors] throws [invalid_argument] exactly when the
    matcher type, the descriptor type or the selector type is not one of the
    supported names; the matcher type is looked at first, then the descriptor
    type, then the selector type, and the message names the first one that is
    wrong.  Whenever it throws, and so when it throws while the matcher is
    configured, the vector of matches is as it was. *)
Theorem matchDescriptors_invalid_argument
  (kPtsSource kPtsRef : list KeyPoint) (descSource descRef : Mat)
  (matches : list DMatch) (descriptorType matcherType selectorType : string) :
  let result :=
    matchDescriptors kPtsSource kPtsRef descSource descRef matches
      descriptorType matcherType selectorType in
  throws result =
    negb (supported_matcherType matcherType &&
          supported_descriptorType descriptorType &&
          supported_selectorType selectorType) /\
  result =
    (if negb (supported_matcherType matcherType) then
       Throws (invalid_argument ("invalid matcherType " ++ matcherType)%string)
              matches
     else if negb (supported_descriptorType descriptorType) then
       Throws (invalid_argument ("invalid descriptorType " ++ descriptorType)%string)
              matches
     else if negb (supported_selectorType selectorType) then
       Throws (invalid_argument ("invalid selectorType " ++ selectorType)%string)
              matches
     else result) /\
  match configure_matcher descriptorType matcherType with
  | inr e => result = Throws e matches
  | inl _ => True
  end.
Proof.
  unfold matchDescriptors, configure_matcher, supported_matcherType,
    supported_descriptorType, supported_selectorType.
  destruct (matcherType =? "MAT_BF")%string;
    destruct (matcherType =? "MAT_FLANN")%string;
    destruct (descriptorType =? "DES_BINARY")%string;
    destruct (descriptorType =? "DES_HOG")%string;
    destruct (selectorType =? "SEL_NN")%string;
    destruct (selectorType =? "SEL_KNN")%string; simpl; auto.
Qed.

(** *** Selection of an extractor and of a detector *)

Lemma select_extractor_none (descriptorType : string) :
  select_extractor descriptorType = None <-> ~ In descriptorType extractor_names.
Proof.
  unfold select_extractor, extractor_names.
  repeat string_case
    ltac:(split; [discriminate | intros H; exfalso; apply H; simpl; auto 10]).
  split; [|reflexivity]. intros _. simpl. intuition congruence.
Qed.

(** C4.  [descKeypoints] assigns an extractor for the six names BRISK, BRIEF,
    ORB, FREAK, AKAZE and SIFT and for no other descriptor type; it calls
    [compute] through the pointer in either case, so the call goes through a
    null pointer exactly for the descriptor types outside the six names (the
    name HARRIS is one), and for the six names it is the library's [compute]
    on the chosen extractor. *)
Theorem descKeypoints_null_extractor
  (keypoints : list KeyPoint) (img descriptors : Mat)
  (descriptorType : string) (out : Trace) :
  (select_extractor descriptorType = None <->
   ~ In descriptorType extractor_names) /\
  (descKeypoints keypoints img descriptors descriptorType out = NullDereference <->
   ~ In descriptorType extractor_names) /\
  match select_extractor descriptorType with
  | None =>
      descKeypoints keypoints img descriptors descriptorType out = NullDereference
  | Some extractor =>
      descKeypoints keypoints img descriptors descriptorType out =
      Returns (fst (feature_compute extractor img keypoints descriptors),
               snd (feature_compute extractor img keypoints descriptors),
               out ++ [CoutExtraction descriptorType])
  end /\
  descKeypoints keypoints img descriptors "HARRIS" out = NullDereference.
Proof.
  split; [apply select_extractor_none|].
  rewrite <- select_extractor_none. unfold descKeypoints.
  destruct (select_extractor descriptorType) as [extractor|].
  - destruct (feature_compute extractor img keypoints descriptors) as [k d].
    simpl. split; [split; discriminate | split; reflexivity].
  - split; [split; reflexivity | split; reflexivity].
Qed.

Lemma select_detector_known (detectorType : string) :
  match select_detector detectorType with
  | inl _ => In detectorType detector_names
  | inr e =>
      ~ In detectorType detector_names /\
      e = invalid_argument ("invalid detectorType " ++ detectorType)%string
  end.
Proof.
  unfold select_detector, detector_names.
  repeat string_case ltac:(simpl; auto 10).
  split; [|reflexivity]. simpl. intuition congruence.
Qed.

(** C5.  [detKeypointsModern] throws [invalid_argument] exactly when the
    detector type is none of FAST, BRISK, ORB, AKAZE and SIFT, and then
    leaves the keypoints as they were; for each of the five names it creates
    the detector of that name, and the keypoints it returns are those of the
    library's [detect] on that detector. *)
Theorem detKeypointsModern_detector
  (keypoints : list KeyPoint) (img : Mat) (detectorType : string)
  (bVis : bool) (out : Trace) :
  let result := detKeypointsModern keypoints img detectorType bVis out in
  (throws result = true <-> ~ In detectorType detector_names) /\
  match select_detector detectorType with
  | inl detector =>
      outcome_map fst result = Returns (feature_detect detector img keypoints)
  | inr _ =>
      result =
      Throws (invalid_argument ("invalid detectorType " ++ detectorType)%string)
             (keypoints, out)
  end /\
  select_detector "FAST" = inl FastFeatureDetector_create /\
  select_detector "BRISK" = inl BRISK_create /\
  select_detector "ORB" = inl ORB_create /\
  select_detector "AKAZE" = inl AKAZE_create /\
  select_detector "SIFT" = inl SIFT_create.
Proof.
  cbv zeta. unfold detKeypointsModern.
  pose proof (select_detector_known detectorType) as Hsel.
  destruct (select_detector detectorType) as [detector|e].
  - split; [|split; [|repeat split]].
    + destruct bVis; simpl; (split; [discriminate | intros H; now elim H]).
    + destruct bVis; reflexivity.
  - destruct Hsel as [Hnot ->].
    split; [|split; [reflexivity | repeat split]].
    simpl. split; [intros _; exact Hnot | reflexivity].
Qed.

(** *** Shi-Tomasi corners *)

Lemma add_corner_spec (keypoints : list KeyPoint) (it : Point2f) :
  add_corner keypoints it = keypoints ++ [corner_keypoint it].
Proof. destruct it as [cx cy]. reflexivity. Qed.

Lemma add_corners_spec (corners : list Point2f) :
  forall keypoints : list KeyPoint,
    fold_left add_corner corners keypoints =
    keypoints ++ map corner_keypoint corners.
Proof.
  induction corners as [|c corners IH]; intros keypoints; simpl.
  - now rewrite app_nil_r.
  - now rewrite IH, add_corner_spec, <- app_assoc.
Qed.

Lemma detKeypointsShiTomasi_keypoints
  (keypoints : list KeyPoint) (img : Mat) (bVis : bool) (out : Trace) :
  fst (detKeypointsShiTomasi keypoints img bVis out) =
  keypoints ++
  map corner_keypoint
    (goodFeaturesToTrack img (shiTomasi_maxCorners img) shiTomasi_qualityLevel
       shiTomasi_minDistance shiTomasi_blockSize false shiTomasi_k).
Proof.
  unfold detKeypointsShiTomasi. rewrite add_corners_spec.
  destruct bVis; reflexivity.
Qed.

Lemma wrap_int_in_range (z : Z) : INT_MIN <= z <= INT_MAX -> wrap_int z = z.
Proof.
  unfold INT_MIN, INT_MAX, wrap_int. intros Hz. rewrite Z.mod_small; lia.
Qed.

(** C7.  [detKeypointsShiTomasi] calls [goodFeaturesToTrack] with
    blockSize 4, qualityLevel 0.01, minDistance (1.0 - 0.0) * 4 = 4 and
    maxCorners the truncation of rows * cols / max(1.0, minDistance), where
    rows * cols is the product of two [int]s (the pixel count itself as long
    as that fits an [int]), and appends one keypoint per returned corner, in
    order, whose [pt] is the corner and whose [size] is the block size 4. *)
Theorem detKeypointsShiTomasi_delegates
  (keypoints : list KeyPoint) (img : Mat) (bVis : bool) (out : Trace) :
  let minDistance := 4%float in
  let maxCorners :=
    int_of_float
      (float_of_int (int_mul (rows img) (cols img)) / fmax 1.0 minDistance)%float in
  let corners :=
    goodFeaturesToTrack img maxCorners 0.01%float minDistance 4 false 0.04%float in
  shiTomasi_minDistance = ((1.0 - 0.0) * 4)%float /\
  shiTomasi_minDistance = minDistance /\
  fst (detKeypointsShiTomasi keypoints img bVis out) =
    keypoints ++
    map (fun c => set_size 4 (set_pt c KeyPoint_default)) corners /\
  List.length (fst (detKeypointsShiTomasi keypoints img bVis out)) =
    (List.length keypoints + List.length corners)%nat /\
  (INT_MIN <= rows img * cols img <= INT_MAX ->
   int_mul (rows img) (cols img) = rows img * cols img).
Proof.
  cbv zeta. rewrite detKeypointsShiTomasi_keypoints.
  split; [reflexivity|]. split; [reflexivity|]. split; [reflexivity|].
  split; [now rewrite length_app, length_map|].
  apply wrap_int_in_range.
Qed.

(** C9.  [detKeypointsShiTomasi] and the SEL_KNN branch of
    [matchDescriptors] only append: the keypoints (the matches) that the
    vector held before the call are, unchanged and in order, a prefix of
    the vector after the call. *)
Theorem shiTomasi_and_knn_append
  (keypoints kPtsSource kPtsRef : list KeyPoint) (img descSource descRef : Mat)
  (matches : list DMatch) (descriptorType matcherType : string)
  (bVis : bool) (out : Trace) :
  extends keypoints (fst (detKeypointsShiTomasi keypoints img bVis out)) /\
  match matchDescriptors kPtsSource kPtsRef descSource descRef matches
          descriptorType matcherType "SEL_KNN" with
  | Returns matches' => extends matches matches'
  | Throws _ matches' => matches' = matches
  | NullDereference => False
  end.
Proof.
  split.
  - rewrite detKeypointsShiTomasi_keypoints. eexists. reflexivity.
  - unfold matchDescriptors.
    destruct (configure_matcher descriptorType matcherType) as [matcher|e];
      [|reflexivity].
    knn_branch. rewrite ratio_filter_appends. eexists. reflexivity.
Qed.

(** *** The Harris suppression loop *)

Lemma fold_left_invariant {A B : Type} (P : A -> Prop) (Q : B -> Prop)
  (f : A -> B -> A) :
  (forall a b, P a -> Q b -> P (f a b)) ->
  forall (l : list B) (a : A), Forall Q l -> P a -> P (fold_left f l a).
Proof.
  intros Hf l. induction l as [|b l IH]; intros a Hl Ha; simpl; [exact Ha|].
  inversion Hl; subst. apply IH; auto.
Qed.

Lemma suppress_In (newKeyPoint : KeyPoint) (keypoints : list KeyPoint) :
  forall (foundOverlap : bool) (k : KeyPoint),
    In k (snd (suppress newKeyPoint foundOverlap keypoints)) ->
    k = newKeyPoint \/ In k keypoints.
Proof.
  induction keypoints as [|it rest IH]; intros foundOverlap k; simpl; [tauto|].
  destruct (harris_maxOverlap <? overlap newKeyPoint it)%float.
  - destruct (response it <? response newKeyPoint)%float; simpl.
    + intros [<-|H]; auto.
    + specialize (IH true k).
      destruct (suppress newKeyPoint true rest) as [found rest']; simpl in *.
      intros [<-|H]; auto. destruct (IH H); auto.
  - specialize (IH foundOverlap k).
    destruct (suppress newKeyPoint foundOverlap rest) as [found rest']; simpl in *.
    intros [<-|H]; auto. destruct (IH H); auto.
Qed.

(** What the scan does establish: a keypoint is appended only when it
    overlaps none of the keypoints kept so far, and then the scan has changed
    none of them. *)
Lemma suppress_not_found (newKeyPoint : KeyPoint) (keypoints : list KeyPoint) :
  forall foundOverlap : bool,
    fst (suppress newKeyPoint foundOverlap keypoints) = false ->
    foundOverlap = false /\
    snd (suppress newKeyPoint foundOverlap keypoints) = keypoints /\
    Forall (fun k => overlapping newKeyPoint k = false) keypoints.
Proof.
  induction keypoints as [|it rest IH]; intros foundOverlap; simpl; [auto|].
  unfold overlapping at 1.
  destruct (harris_maxOverlap <? overlap newKeyPoint it)%float eqn:Hov.
  - destruct (response it <? response newKeyPoint)%float; [discriminate|].
    specialize (IH true).
    destruct (suppress newKeyPoint true rest) as [found rest']; simpl in *.
    intros Hfound. now destruct (IH Hfound).
  - specialize (IH foundOverlap).
    destruct (suppress newKeyPoint foundOverlap rest) as [found rest']; simpl in *.
    intros Hfound. destruct (IH Hfound) as (-> & -> & Hrest). auto.
Qed.

Lemma suppress_length (newKeyPoint : KeyPoint) (keypoints : list KeyPoint) :
  forall foundOverlap : bool,
    List.length (snd (suppress newKeyPoint foundOverlap keypoints)) =
    List.length keypoints.
Proof.
  induction keypoints as [|it rest IH]; intros foundOverlap; simpl; [reflexivity|].
  destruct (harris_maxOverlap <? overlap newKeyPoint it)%float;
    [destruct (response it <? response newKeyPoint)%float; [reflexivity|]|];
    match goal with
    | |- context [suppress newKeyPoint ?f rest] =>
        specialize (IH f); destruct (suppress newKeyPoint f rest); simpl in *;
        now rewrite IH
    end.
Qed.

Lemma harris_pixel_low (dst_norm : Mat) (j i : Z) (keypoints : list KeyPoint) :
  int_of_float (at_ dst_norm j i) <= harris_minResponse ->
  harris_pixel dst_norm j keypoints i = keypoints.
Proof.
  intros Hlow. unfold harris_pixel.
  destruct (Z.ltb_spec harris_minResponse (int_of_float (at_ dst_norm j i)));
    [lia | reflexivity].
Qed.

Lemma harris_pixel_corners (dst_norm : Mat) (j i : Z) (keypoints : list KeyPoint) :
  0 <= j < rows dst_norm -> 0 <= i < cols dst_norm ->
  Forall (harris_corner dst_norm) keypoints ->
  Forall (harris_corner dst_norm) (harris_pixel dst_norm j keypoints i).
Proof.
  intros Hj Hi Hall. unfold harris_pixel.
  destruct (Z.ltb_spec harris_minResponse (int_of_float (at_ dst_norm j i)))
    as [Hhigh|_]; [|exact Hall].
  assert (Hnew : harris_corner dst_norm
                   (harris_keypoint i j (int_of_float (at_ dst_norm j i))))
    by (exists i, j; auto).
  pose proof (suppress_In (harris_keypoint i j (int_of_float (at_ dst_norm j i)))
                keypoints false) as Hin.
  destruct (suppress _ false keypoints) as [foundOverlap keypoints'].
  simpl in Hin.
  assert (Hall' : Forall (harris_corner dst_norm) keypoints').
  { apply Forall_forall. intros k Hk. destruct (Hin k Hk) as [->|Hold]; auto.
    rewrite Forall_forall in Hall. auto. }
  destruct foundOverlap; simpl; [exact Hall'|].
  apply Forall_app. auto.
Qed.

Lemma harris_row_corners (dst_norm : Mat) (j : Z) (keypoints : list KeyPoint) :
  0 <= j < rows dst_norm ->
  Forall (harris_corner dst_norm) keypoints ->
  Forall (harris_corner dst_norm) (harris_row dst_norm keypoints j).
Proof.
  intros Hj Hall. unfold harris_row.
  apply (fold_left_invariant (Forall (harris_corner dst_norm))
           (fun i => 0 <= i < cols dst_norm)); auto.
  - intros kps i Hkps Hi. now apply harris_pixel_corners.
  - apply Forall_forall. intros i. apply range_spec.
Qed.

Lemma harris_nms_clears (dst_norm : Mat) (keypoints : list KeyPoint) :
  harris_nms dst_norm keypoints = harris_nms dst_norm [].
Proof. destruct keypoints; reflexivity. Qed.

Lemma harris_nms_corners (dst_norm : Mat) (keypoints : list KeyPoint) :
  Forall (harris_corner dst_norm) (harris_nms dst_norm keypoints).
Proof.
  rewrite harris_nms_clears. unfold harris_nms. simpl.
  apply (fold_left_invariant (Forall (harris_corner dst_norm))
           (fun j => 0 <= j < rows dst_norm)); auto.
  - intros kps j Hkps Hj. now apply harris_row_corners.
  - apply Forall_forall. intros j. apply range_spec.
Qed.

Lemma detKeypointsHarris_keypoints
  (keypoints : list KeyPoint) (img : Mat) (bVis : bool) (out : Trace) :
  fst (detKeypointsHarris keypoints img bVis out) =
  harris_nms
    (normalize (cornerHarris img harris_blockSize harris_apertureSize harris_k)
       0 255)
    keypoints.
Proof. unfold detKeypointsHarris. destruct bVis; reflexivity. Qed.

Lemma round_to_binary32_exact (z : Z) :
  - 2 ^ 24 <= z <= 2 ^ 24 -> round_to_binary32 z = z.
Proof.
  intros Hz. unfold round_to_binary32.
  destruct (Z.eq_dec (Z.abs z) (2 ^ 24)) as [Heq|Hne].
  - assert (z = 2 ^ 24 \/ z = - 2 ^ 24) as [-> | ->] by lia; reflexivity.
  - destruct (Z.eq_dec (Z.abs z) 0) as [Hzero|Hpos].
    + rewrite Hzero. reflexivity.
    + assert (Z.log2 (Z.abs z) < 24) by (apply Z.log2_lt_pow2; lia).
      destruct (Z.leb_spec (Z.log2 (Z.abs z) + 1 - 24) 0); [reflexivity | lia].
Qed.

Lemma float32_of_int_exact (z : Z) :
  - 2 ^ 24 <= z <= 2 ^ 24 -> float32_of_int z = float_of_int z.
Proof.
  intros Hz. unfold float32_of_int. now rewrite round_to_binary32_exact.
Qed.

(** C6.  Every keypoint that [detKeypointsHarris] gives back is the keypoint
    of a pixel (row [j], column [i]) of the normalized response matrix whose
    response, truncated to [int], is greater than [minResponse = 100]: its
    [pt] is [cv::Point2f(i, j)], its [response] is that truncated value as a
    [float] and its [size] is [2 * apertureSize = 6].  The conversion to
    [float] is exact up to 2^24, so [pt] is the pair (i, j) itself for a
    matrix of at most 2^24 rows and columns, and [response] is the truncated
    value itself up to 2^24; beyond, they are rounded to binary32.  A pixel
    whose truncated response is not greater than 100 leaves the vector as it
    is. *)
Theorem detKeypointsHarris_corners
  (keypoints : list KeyPoint) (img : Mat) (bVis : bool) (out : Trace) :
  let dst_norm :=
    normalize (cornerHarris img harris_blockSize harris_apertureSize harris_k)
      0 255 in
  Forall
    (fun k =>
       size k = 6%float /\
       exists i j : Z,
         0 <= j < rows dst_norm /\ 0 <= i < cols dst_norm /\
         100 < int_of_float (at_ dst_norm j i) /\
         pt k = mkPoint2f (float32_of_int i) (float32_of_int j) /\
         response k = float32_of_int (int_of_float (at_ dst_norm j i)) /\
         (rows dst_norm <= 2 ^ 24 -> cols dst_norm <= 2 ^ 24 ->
          pt k = mkPoint2f (float_of_int i) (float_of_int j)) /\
         (int_of_float (at_ dst_norm j i) <= 2 ^ 24 ->
          response k = float_of_int (int_of_float (at_ dst_norm j i))))
    (fst (detKeypointsHarris keypoints img bVis out)) /\
  (forall (j i : Z) (kept : list KeyPoint),
      int_of_float (at_ dst_norm j i) <= 100 ->
      harris_pixel dst_norm j kept i = kept) /\
  (forall z : Z, - 2 ^ 24 <= z <= 2 ^ 24 -> float32_of_int z = float_of_int z).
Proof.
  cbv zeta. split; [|split].
  - rewrite detKeypointsHarris_keypoints.
    eapply Forall_impl; [|apply harris_nms_corners].
    intros k (i & j & Hj & Hi & Hhigh & ->).
    unfold harris_minResponse in Hhigh.
    split; [reflexivity|]. exists i, j.
    repeat (split; [first [assumption | reflexivity]|]). split.
    + intros Hrows Hcols. simpl. now rewrite !float32_of_int_exact by lia.
    + intros Hsmall. simpl. now rewrite float32_of_int_exact by lia.
  - intros j i kept Hlow. now apply harris_pixel_low.
  - exact float32_of_int_exact.
Qed.

(** C10.  [detKeypointsHarris] empties the vector before it inserts a
    detection, so what it gives back does not depend on what the vector held:
    any initial vector gives the result of the empty one. *)
Theorem detKeypointsHarris_ignores_initial_keypoints
  (keypoints : list KeyPoint) (img : Mat) (bVis : bool) (out : Trace) :
  detKeypointsHarris keypoints img bVis out =
  detKeypointsHarris [] img bVis out.
Proof.
  unfold detKeypointsHarris. now rewrite (harris_nms_clears _ keypoints).
Qed.

(** C8.  The flag [bVis] only adds window events: for each of the three
    detectors the keypoints after a call with [bVis = true] are those after
    the call with [bVis = false] on the same image and initial keypoints
    (for [detKeypointsModern] the call also ends the same way, by a return
    or by the same exception). *)
Theorem visualization_keeps_keypoints
  (keypoints : list KeyPoint) (img : Mat) (detectorType : string) (out : Trace) :
  fst (detKeypointsShiTomasi keypoints img true out) =
    fst (detKeypointsShiTomasi keypoints img false out) /\
  fst (detKeypointsHarris keypoints img true out) =
    fst (detKeypointsHarris keypoints img false out) /\
  outcome_map fst (detKeypointsModern keypoints img detectorType true out) =
    outcome_map fst (detKeypointsModern keypoints img detectorType false out).
Proof.
  split; [|split].
  - now rewrite !detKeypointsShiTomasi_keypoints.
  - now rewrite !detKeypointsHarris_keypoints.
  - unfold detKeypointsModern.
    destruct (select_detector detectorType); reflexivity.
Qed.

(** *** The scan as a function of the kept keypoints *)

Lemma replace_first_length {A : Type} (p : A -> bool) (new : A) (l : list A) :
  List.length (replace_first p new l) = List.length l.
Proof.
  induction l as [|a rest IH]; simpl; [reflexivity|].
  destruct (p a); simpl; congruence.
Qed.

Lemma replace_first_none {A : Type} (p : A -> bool) (new : A) (l : list A) :
  Forall (fun a => p a = false) l -> replace_first p new l = l.
Proof.
  induction 1 as [|a rest Ha _ IH]; simpl; [reflexivity|].
  now rewrite Ha, IH.
Qed.

Lemma replace_first_some {A : Type} (p : A -> bool) (new : A) (l : list A) :
  existsb p l = true ->
  exists (before : list A) (old : A) (after : list A),
    l = before ++ old :: after /\
    replace_first p new l = before ++ new :: after /\
    p old = true /\ Forall (fun a => p a = false) before.
Proof.
  induction l as [|a rest IH]; simpl; [discriminate|].
  destruct (p a) eqn:Ha; simpl.
  - intros _. exists [], a, rest. auto.
  - intros Hex. destruct (IH Hex) as (before & old & after & -> & -> & Hold & Hb).
    exists (a :: before), old, after. auto.
Qed.

Lemma overwritten_overlapping (newKeyPoint : KeyPoint) (keypoints : list KeyPoint) :
  existsb (overlapping newKeyPoint) keypoints = false ->
  Forall (fun k => overwritten_by newKeyPoint k = false) keypoints.
Proof.
  induction keypoints as [|it rest IH]; simpl; [constructor|].
  intros Hex. apply orb_false_iff in Hex as [Hit Hrest].
  constructor; [|auto]. unfold overwritten_by. now rewrite Hit.
Qed.

Lemma suppress_spec (newKeyPoint : KeyPoint) (keypoints : list KeyPoint) :
  forall foundOverlap : bool,
    suppress newKeyPoint foundOverlap keypoints =
    (foundOverlap || existsb (overlapping newKeyPoint) keypoints,
     replace_first (overwritten_by newKeyPoint) newKeyPoint keypoints).
Proof.
  induction keypoints as [|it rest IH]; intros foundOverlap; simpl.
  - now rewrite orb_false_r.
  - unfold overwritten_by at 1, overlapping at 1 3.
    destruct (harris_maxOverlap <? overlap newKeyPoint it)%float; simpl.
    + destruct (response it <? response newKeyPoint)%float.
      * now rewrite orb_true_r.
      * rewrite IH. simpl. now rewrite orb_true_r.
    + now rewrite IH.
Qed.

Lemma existsb_false_Forall {A : Type} (p : A -> bool) (l : list A) :
  existsb p l = false -> Forall (fun a => p a = false) l.
Proof.
  induction l as [|a rest IH]; simpl; [constructor|].
  intros Hex. apply orb_false_iff in Hex as [Ha Hrest]. auto.
Qed.

Lemma harris_pixel_cases (dst_norm : Mat) (j i : Z) (keypoints : list KeyPoint) :
  harris_pixel dst_norm j keypoints i =
  let newKeyPoint := pixel_keypoint dst_norm (i, j) in
  if above_minResponse dst_norm (i, j) then
    if existsb (overlapping newKeyPoint) keypoints then
      replace_first (overwritten_by newKeyPoint) newKeyPoint keypoints
    else keypoints ++ [newKeyPoint]
  else keypoints.
Proof.
  unfold harris_pixel, above_minResponse, pixel_keypoint, pixel_response. simpl.
  destruct (harris_minResponse <? int_of_float (at_ dst_norm j i)); [|reflexivity].
  rewrite suppress_spec. simpl.
  destruct (existsb _ keypoints) eqn:Hex; simpl; [reflexivity|].
  now rewrite replace_first_none by now apply overwritten_overlapping.
Qed.

(** X1.  What one pixel does to the vector (lines 195-220).  A pixel that
    does not pass [response > minResponse] changes nothing.  Otherwise its
    keypoint is appended when it overlaps no kept keypoint; when it overlaps
    one, it takes the place of the first kept keypoint that it overlaps and
    that is strictly weaker, all other entries staying where they are, or it
    is dropped when there is no such keypoint. *)
Theorem harris_pixel_behaviour
  (dst_norm : Mat) (j i : Z) (keypoints : list KeyPoint) :
  let newKeyPoint := pixel_keypoint dst_norm (i, j) in
  let result := harris_pixel dst_norm j keypoints i in
  if above_minResponse dst_norm (i, j) then
    if existsb (overlapping newKeyPoint) keypoints then
      if existsb (overwritten_by newKeyPoint) keypoints then
        exists (before : list KeyPoint) (old : KeyPoint) (after : list KeyPoint),
          keypoints = before ++ old :: after /\
          result = before ++ newKeyPoint :: after /\
          overwritten_by newKeyPoint old = true /\
          Forall (fun k => overwritten_by newKeyPoint k = false) before
      else result = keypoints
    else result = keypoints ++ [newKeyPoint]
  else result = keypoints.
Proof.
  cbv zeta. rewrite harris_pixel_cases. cbv zeta.
  destruct (above_minResponse dst_norm (i, j)); [|reflexivity].
  destruct (existsb (overlapping _) keypoints); [|reflexivity].
  destruct (existsb (overwritten_by _) keypoints) eqn:Hex.
  - destruct (replace_first_some _ (pixel_keypoint dst_norm (i, j)) _ Hex)
      as (before & old & after & Hk & Hr & Hold & Hb).
    exists before, old, after. auto.
  - apply replace_first_none. now apply existsb_false_Forall.
Qed.

Lemma harris_pixel_grows (dst_norm : Mat) (j i : Z) (keypoints : list KeyPoint) :
  (List.length keypoints <= List.length (harris_pixel dst_norm j keypoints i))%nat.
Proof.
  rewrite harris_pixel_cases. cbv zeta.
  destruct (above_minResponse dst_norm (i, j)); [|lia].
  destruct (existsb _ keypoints).
  - rewrite replace_first_length. lia.
  - rewrite length_app. simpl. lia.
Qed.

(** *** The two loops as one scan *)

Lemma fold_left_flat_map {A B C : Type} (f : A -> C -> A) (g : B -> list C)
  (l : list B) :
  forall a : A,
    fold_left f (flat_map g l) a = fold_left (fun a b => fold_left f (g b) a) l a.
Proof.
  induction l as [|b l IH]; intros a; simpl; [reflexivity|].
  now rewrite fold_left_app, IH.
Qed.

Lemma fold_left_map {A B C : Type} (f : A -> C -> A) (h : B -> C) (l : list B) :
  forall a : A, fold_left f (map h l) a = fold_left (fun a b => f a (h b)) l a.
Proof. induction l as [|b l IH]; intros a; simpl; [reflexivity|apply IH]. Qed.

Lemma fold_left_pointwise {A B : Type} (f g : A -> B -> A) (l : list B) :
  (forall a b, f a b = g a b) ->
  forall a : A, fold_left f l a = fold_left g l a.
Proof.
  intros Hfg. induction l as [|b l IH]; intros a; simpl; [reflexivity|].
  now rewrite Hfg, IH.
Qed.

Lemma harris_nms_scan (dst_norm : Mat) (keypoints : list KeyPoint) :
  harris_nms dst_norm keypoints = scan dst_norm (scan_order dst_norm) [].
Proof.
  rewrite harris_nms_clears. unfold harris_nms, scan, scan_order. simpl.
  rewrite fold_left_flat_map. apply fold_left_pointwise. intros kps j.
  unfold harris_row. now rewrite fold_left_map.
Qed.

Lemma scan_cons (dst_norm : Mat) (p : Z * Z) (pixels : list (Z * Z))
  (keypoints : list KeyPoint) :
  scan dst_norm (p :: pixels) keypoints =
  scan dst_norm pixels
    (if above_minResponse dst_norm p then
       if existsb (overlapping (pixel_keypoint dst_norm p)) keypoints then
         replace_first (overwritten_by (pixel_keypoint dst_norm p))
           (pixel_keypoint dst_norm p) keypoints
       else keypoints ++ [pixel_keypoint dst_norm p]
     else keypoints).
Proof. destruct p as [i j]. unfold scan. simpl. now rewrite harris_pixel_cases. Qed.

Lemma scan_corner_pixels (dst_norm : Mat) (pixels : list (Z * Z)) :
  forall keypoints : list KeyPoint,
    scan dst_norm pixels keypoints =
    scan dst_norm (filter (above_minResponse dst_norm) pixels) keypoints.
Proof.
  induction pixels as [|p pixels IH]; intros keypoints; [reflexivity|].
  simpl filter. destruct (above_minResponse dst_norm p) eqn:Hp.
  - rewrite !scan_cons, Hp. apply IH.
  - rewrite scan_cons, Hp. apply IH.
Qed.

Lemma scan_grows (dst_norm : Mat) (pixels : list (Z * Z)) :
  forall keypoints : list KeyPoint,
    (List.length keypoints <= List.length (scan dst_norm pixels keypoints))%nat.
Proof.
  unfold scan.
  induction pixels as [|p pixels IH]; intros keypoints; simpl; [lia|].
  etransitivity; [apply (harris_pixel_grows dst_norm (snd p) (fst p))|apply IH].
Qed.

Lemma range_NoDup (n : Z) : NoDup (range n).
Proof.
  unfold range. apply NoDup_map_NoDup_ForallPairs; [|apply seq_NoDup].
  intros a b _ _. apply Nat2Z.inj.
Qed.

Lemma scan_order_spec (dst_norm : Mat) (i j : Z) :
  In (i, j) (scan_order dst_norm) <->
  0 <= j < rows dst_norm /\ 0 <= i < cols dst_norm.
Proof.
  unfold scan_order. rewrite in_flat_map. split.
  - intros (j' & Hj & Hin). apply in_map_iff in Hin as (i' & Heq & Hi).
    inversion Heq; subst. now rewrite <- !range_spec.
  - intros [Hj Hi]. exists j. rewrite range_spec. split; [exact Hj|].
    apply in_map_iff. exists i. split; [reflexivity|]. now apply range_spec.
Qed.

Lemma scan_order_NoDup (dst_norm : Mat) : NoDup (scan_order dst_norm).
Proof.
  unfold scan_order.
  generalize (range_NoDup (rows dst_norm)).
  induction (range (rows dst_norm)) as [|j js IH]; intros Hjs; simpl;
    [constructor|].
  inversion Hjs as [|? ? Hj Hjs']; subst.
  apply NoDup_app; [| now apply IH |].
  - apply NoDup_map_NoDup_ForallPairs; [|apply range_NoDup].
    intros a b _ _ Heq. now inversion Heq.
  - intros [i j'] Hrow Hrest.
    apply in_map_iff in Hrow as (i' & Heq & _). inversion Heq; subst.
    apply in_flat_map in Hrest as (j'' & Hj'' & Hin).
    apply in_map_iff in Hin as (i'' & Heq' & _). inversion Heq'; subst.
    contradiction.
Qed.

Lemma corner_pixels_NoDup (dst_norm : Mat) : NoDup (corner_pixels dst_norm).
Proof. apply NoDup_filter, scan_order_NoDup. Qed.

Lemma corner_pixels_spec (dst_norm : Mat) (i j : Z) :
  In (i, j) (corner_pixels dst_norm) <->
  (0 <= j < rows dst_norm /\ 0 <= i < cols dst_norm) /\
  100 < int_of_float (at_ dst_norm j i).
Proof.
  unfold corner_pixels. rewrite filter_In, scan_order_spec.
  unfold above_minResponse, pixel_response, harris_minResponse. simpl.
  now rewrite Z.ltb_lt.
Qed.

(** *** Which pixels the kept keypoints come from *)

Lemma replace_first_map {A B : Type} (f : A -> B) (p : B -> bool) (new : A)
  (l : list A) :
  replace_first p (f new) (map f l) =
  map f (replace_first (fun a => p (f a)) new l).
Proof.
  induction l as [|a rest IH]; simpl; [reflexivity|].
  destruct (p (f a)); simpl; congruence.
Qed.

Lemma replace_first_In {A : Type} (p : A -> bool) (new : A) (l : list A) (a : A) :
  In a (replace_first p new l) -> a = new \/ In a l.
Proof.
  induction l as [|b rest IH]; simpl; [intros []|].
  destruct (p b); simpl.
  - intros [<-|Hin]; auto.
  - intros [<-|Hin]; auto. destruct (IH Hin); auto.
Qed.

Lemma replace_first_NoDup {A : Type} (p : A -> bool) (new : A) (l : list A) :
  NoDup l -> ~ In new l -> NoDup (replace_first p new l).
Proof.
  induction 1 as [|b rest Hb Hrest IH]; simpl; intros Hnew; [constructor|].
  assert (Hnew' : ~ In new rest) by (intros Hin; apply Hnew; now right).
  destruct (p b).
  - constructor; [exact Hnew' | exact Hrest].
  - constructor; [|now apply IH].
    intros Hin. apply replace_first_In in Hin as [<-|Hin];
      [apply Hnew; now left | contradiction].
Qed.

Lemma scan_distinct (dst_norm : Mat) (pixels : list (Z * Z)) :
  forall kept : list (Z * Z),
    NoDup kept -> NoDup pixels ->
    (forall p, In p kept -> ~ In p pixels) ->
    exists kept' : list (Z * Z),
      NoDup kept' /\ incl kept' (kept ++ pixels) /\
      scan dst_norm pixels (map (pixel_keypoint dst_norm) kept) =
      map (pixel_keypoint dst_norm) kept'.
Proof.
  induction pixels as [|q pixels IH]; intros kept Hkept Hpixels Hdisj.
  - exists kept. rewrite app_nil_r. repeat split; auto using incl_refl.
  - inversion Hpixels as [|? ? Hq Hpixels']; subst.
    assert (Hqkept : ~ In q kept) by (intros Hin; apply (Hdisj q Hin); now left).
    rewrite scan_cons.
    assert (Hstep : exists kept1 : list (Z * Z),
               NoDup kept1 /\ incl kept1 (q :: kept) /\
               (if above_minResponse dst_norm q then
                  if existsb (overlapping (pixel_keypoint dst_norm q))
                       (map (pixel_keypoint dst_norm) kept)
                  then replace_first (overwritten_by (pixel_keypoint dst_norm q))
                         (pixel_keypoint dst_norm q)
                         (map (pixel_keypoint dst_norm) kept)
                  else map (pixel_keypoint dst_norm) kept ++
                       [pixel_keypoint dst_norm q]
                else map (pixel_keypoint dst_norm) kept) =
               map (pixel_keypoint dst_norm) kept1).
    { destruct (above_minResponse dst_norm q).
      - destruct (existsb _ (map (pixel_keypoint dst_norm) kept)).
        + exists (replace_first
                    (fun a => overwritten_by (pixel_keypoint dst_norm q)
                                (pixel_keypoint dst_norm a)) q kept).
          rewrite replace_first_map.
          split; [now apply replace_first_NoDup|].
          split; [|reflexivity].
          intros p Hp. apply replace_first_In in Hp as [->|Hp]; simpl; auto.
        + exists (kept ++ [q]). rewrite map_app. simpl.
          split; [|split; [|reflexivity]].
          * apply NoDup_app; auto.
            -- constructor; [intros []|constructor].
            -- intros p Hp [<-|[]]. contradiction.
          * intros p Hp. apply in_app_iff in Hp as [Hp|[<-|[]]]; simpl; auto.
      - exists kept. repeat split; auto. intros p Hp. now right. }
    destruct Hstep as (kept1 & Hnd1 & Hincl1 & ->).
    destruct (IH kept1 Hnd1 Hpixels') as (kept' & Hnd' & Hincl' & Hscan).
    { intros p Hp Hin. destruct (Hincl1 p Hp) as [<-|Hk]; [contradiction|].
      apply (Hdisj p Hk). now right. }
    exists kept'. split; [exact Hnd'|]. split; [|exact Hscan].
    intros p Hp. apply Hincl', in_app_iff in Hp as [Hp|Hp].
    + destruct (Hincl1 p Hp) as [<-|Hk]; apply in_app_iff; simpl; auto.
    + apply in_app_iff. simpl. auto.
Qed.

(** X2.  The keypoints that the Harris loops (lines 186-222) leave in the
    vector are the keypoints of pairwise distinct pixels that pass
    [response > minResponse]: no pixel is reported twice, and there are at
    most as many keypoints as there are such pixels. *)
Theorem harris_nms_distinct_pixels (dst_norm : Mat) (keypoints : list KeyPoint) :
  exists pixels : list (Z * Z),
    NoDup pixels /\
    incl pixels (corner_pixels dst_norm) /\
    harris_nms dst_norm keypoints = map (pixel_keypoint dst_norm) pixels /\
    (List.length (harris_nms dst_norm keypoints) <=
     List.length (corner_pixels dst_norm))%nat.
Proof.
  rewrite harris_nms_scan, scan_corner_pixels.
  destruct (scan_distinct dst_norm (corner_pixels dst_norm) [])
    as (pixels & Hnd & Hincl & Hscan);
    [constructor | apply corner_pixels_NoDup | intros p [] |].
  simpl in Hincl, Hscan. exists pixels. fold (corner_pixels dst_norm).
  rewrite Hscan, length_map.
  auto using NoDup_incl_length.
Qed.

(** X3.  The Harris loops leave the vector empty exactly when no pixel of
    the response matrix has a truncated response above 100; in particular a
    matrix without rows or without columns gives no keypoint, whatever the
    vector held before. *)
Theorem harris_nms_empty_iff (dst_norm : Mat) (keypoints : list KeyPoint) :
  harris_nms dst_norm keypoints = [] <->
  forall i j : Z,
    0 <= j < rows dst_norm -> 0 <= i < cols dst_norm ->
    int_of_float (at_ dst_norm j i) <= 100.
Proof.
  rewrite harris_nms_scan, scan_corner_pixels. fold (corner_pixels dst_norm).
  split.
  - intros Hempty i j Hj Hi.
    destruct (Z.le_gt_cases (int_of_float (at_ dst_norm j i)) 100) as [|Hhigh];
      [assumption|exfalso].
    assert (Hin : In (i, j) (corner_pixels dst_norm))
      by (apply corner_pixels_spec; repeat split; lia).
    destruct (corner_pixels dst_norm) as [|q rest] eqn:Hcp; [contradiction|].
    assert (Hq : above_minResponse dst_norm q = true).
    { assert (Hfirst : In q (corner_pixels dst_norm)) by (rewrite Hcp; now left).
      unfold corner_pixels in Hfirst. now apply filter_In in Hfirst. }
    rewrite scan_cons, Hq in Hempty. simpl in Hempty.
    pose proof (scan_grows dst_norm rest [pixel_keypoint dst_norm q]) as Hlen.
    rewrite Hempty in Hlen. simpl in Hlen. lia.
  - intros Hlow.
    assert (Hnone : corner_pixels dst_norm = []).
    { destruct (corner_pixels dst_norm) as [|[i j] rest] eqn:Hcp; [reflexivity|].
      assert (Hin : In (i, j) (corner_pixels dst_norm))
        by (rewrite Hcp; now left).
      apply corner_pixels_spec in Hin as [[Hj Hi] Hhigh].
      specialize (Hlow i j Hj Hi). lia. }
    now rewrite Hnone.
Qed.

(** *** When the suppression is exact *)

Lemma scan_isolated (dst_norm : Mat) (pixels : list (Z * Z)) :
  forall kept : list (Z * Z),
    NoDup (kept ++ pixels) ->
    Forall (fun p => above_minResponse dst_norm p = true) pixels ->
    (forall p q, In p (kept ++ pixels) -> In q (kept ++ pixels) -> p <> q ->
       overlapping (pixel_keypoint dst_norm p) (pixel_keypoint dst_norm q) = false) ->
    scan dst_norm pixels (map (pixel_keypoint dst_norm) kept) =
    map (pixel_keypoint dst_norm) (kept ++ pixels).
Proof.
  induction pixels as [|q pixels IH]; intros kept Hnd Hhigh Hfar.
  - now rewrite app_nil_r.
  - inversion Hhigh as [|? ? Hq Hhigh']; subst.
    rewrite scan_cons, Hq.
    assert (Hnone : existsb (overlapping (pixel_keypoint dst_norm q))
                      (map (pixel_keypoint dst_norm) kept) = false).
    { destruct (existsb _ _) eqn:Hex; [exfalso|reflexivity].
      apply existsb_exists in Hex as (k & Hk & Hov).
      apply in_map_iff in Hk as (p & <- & Hp).
      rewrite Hfar in Hov; [discriminate| | |].
      - apply in_app_iff. simpl. auto.
      - apply in_app_iff. auto.
      - intros <-. apply NoDup_remove_2 in Hnd. apply Hnd, in_app_iff. auto. }
    rewrite Hnone.
    replace (map (pixel_keypoint dst_norm) kept ++ [pixel_keypoint dst_norm q])
      with (map (pixel_keypoint dst_norm) (kept ++ [q]))
      by (now rewrite map_app).
    replace (kept ++ q :: pixels) with ((kept ++ [q]) ++ pixels) in Hnd, Hfar |- *
      by (now rewrite <- app_assoc).
    now apply IH.
Qed.

(** X4.  When no two pixels that pass the threshold have overlapping
    keypoints, the Harris loops return the keypoints of exactly those pixels,
    each once, in scan order (row by row, left to right). *)
Theorem harris_nms_isolated_corners (dst_norm : Mat) (keypoints : list KeyPoint) :
  (forall p q : Z * Z,
      In p (corner_pixels dst_norm) -> In q (corner_pixels dst_norm) -> p <> q ->
      overlapping (pixel_keypoint dst_norm p) (pixel_keypoint dst_norm q) = false) ->
  harris_nms dst_norm keypoints =
  map (pixel_keypoint dst_norm) (corner_pixels dst_norm).
Proof.
  intros Hfar. rewrite harris_nms_scan, scan_corner_pixels.
  fold (corner_pixels dst_norm).
  apply (scan_isolated dst_norm (corner_pixels dst_norm) []); simpl.
  - apply corner_pixels_NoDup.
  - apply Forall_forall. intros p Hp. unfold corner_pixels in Hp.
    now apply filter_In in Hp.
  - exact Hfar.
Qed.

Lemma overlap_free_nil : overlap_free [].
Proof. intros m n a b _ Hm. now destruct m. Qed.

Lemma overlap_free_snoc (keypoints : list KeyPoint) (newKeyPoint : KeyPoint) :
  overlap_free keypoints ->
  Forall (fun k => overlapping newKeyPoint k = false /\
                   overlapping k newKeyPoint = false) keypoints ->
  overlap_free (keypoints ++ [newKeyPoint]).
Proof.
  intros Hfree Hnew m n a b Hmn Hm Hn.
  rewrite Forall_forall in Hnew.
  assert (Hcase : forall (t : nat) (c : KeyPoint),
             nth_error (keypoints ++ [newKeyPoint]) t = Some c ->
             (t < List.length keypoints)%nat /\ nth_error keypoints t = Some c \/
             t = List.length keypoints /\ c = newKeyPoint).
  { intros t c Ht.
    destruct (Nat.lt_ge_cases t (List.length keypoints)) as [Hlt|Hge].
    - left. now rewrite nth_error_app1 in Ht.
    - right. rewrite nth_error_app2 in Ht by exact Hge.
      destruct (t - List.length keypoints)%nat as [|d] eqn:Hd; simpl in Ht.
      + split; [lia | congruence].
      + now destruct d. }
  destruct (Hcase m a Hm) as [[_ Ha]|[-> ->]];
    destruct (Hcase n b Hn) as [[_ Hb]|[-> ->]].
  - exact (Hfree m n a b Hmn Ha Hb).
  - apply nth_error_In in Ha. now apply Hnew.
  - apply nth_error_In in Hb. now apply Hnew.
  - contradiction.
Qed.

Lemma scan_overlap_free (dst_norm : Mat) (pixels : list (Z * Z)) :
  forall keypoints : list KeyPoint,
    overlap_free keypoints ->
    (forall k, In k keypoints ->
       Forall (fun q => overwritten_by (pixel_keypoint dst_norm q) k = false)
              pixels) ->
    ForallOrdPairs
      (fun p q => overwritten_by (pixel_keypoint dst_norm q)
                    (pixel_keypoint dst_norm p) = false) pixels ->
    (forall a b,
       In a (keypoints ++ map (pixel_keypoint dst_norm) pixels) ->
       In b (keypoints ++ map (pixel_keypoint dst_norm) pixels) ->
       overlapping a b = overlapping b a) ->
    overlap_free (scan dst_norm pixels keypoints).
Proof.
  induction pixels as [|q pixels IH]; intros keypoints Hfree Hkept Hpairs Hsym;
    [exact Hfree|].
  inversion Hpairs as [|? ? Hq Hpairs']; subst.
  rewrite scan_cons.
  assert (Hnot : Forall (fun k => overwritten_by (pixel_keypoint dst_norm q) k = false)
                   keypoints).
  { apply Forall_forall. intros k Hk. specialize (Hkept k Hk).
    now inversion Hkept. }
  assert (Hold : forall k, In k keypoints ->
            Forall (fun q' => overwritten_by (pixel_keypoint dst_norm q') k = false)
                   pixels).
  { intros k Hk. specialize (Hkept k Hk). now inversion Hkept. }
  assert (Hsym' : forall a b,
            In a (keypoints ++ map (pixel_keypoint dst_norm) pixels) ->
            In b (keypoints ++ map (pixel_keypoint dst_norm) pixels) ->
            overlapping a b = overlapping b a).
  { intros a b Ha Hb. apply in_app_iff in Ha, Hb.
    apply Hsym; apply in_app_iff; simpl;
      [destruct Ha | destruct Hb]; auto. }
  destruct (above_minResponse dst_norm q); [|now apply IH].
  destruct (existsb _ keypoints) eqn:Hex.
  - rewrite replace_first_none by exact Hnot. now apply IH.
  - apply IH; [| | exact Hpairs' |].
    + apply overlap_free_snoc; [exact Hfree|].
      apply Forall_forall. intros k Hk.
      assert (Hov : overlapping (pixel_keypoint dst_norm q) k = false).
      { pose proof (existsb_false_Forall _ _ Hex) as Hall.
        rewrite Forall_forall in Hall. now apply Hall. }
      split; [exact Hov|]. rewrite Hsym; [exact Hov| |].
      * apply in_app_iff. auto.
      * apply in_app_iff. simpl. auto.
    + intros k Hk. apply in_app_iff in Hk as [Hk|[<-|[]]]; [now apply Hold|].
      exact Hq.
    + intros a b Ha Hb. rewrite !in_app_iff in Ha, Hb. simpl in Ha, Hb.
      apply Hsym; apply in_app_iff; simpl;
        [destruct Ha as [[|[|[]]]|] | destruct Hb as [[|[|[]]]|]]; auto.
Qed.

(** X5.  The Harris loops do suppress every overlap when no pixel that
    passes the threshold both overlaps and is strictly stronger than such a
    pixel earlier in scan order (so that line 211 never overwrites a kept
    keypoint), for an overlap measure that is symmetric on the keypoints of
    those pixels: then no two keypoints of the result overlap. *)
Theorem harris_nms_overlap_free (dst_norm : Mat) (keypoints : list KeyPoint) :
  ForallOrdPairs
    (fun p q => overwritten_by (pixel_keypoint dst_norm q)
                  (pixel_keypoint dst_norm p) = false)
    (corner_pixels dst_norm) ->
  (forall p q : Z * Z,
      In p (corner_pixels dst_norm) -> In q (corner_pixels dst_norm) ->
      overlapping (pixel_keypoint dst_norm p) (pixel_keypoint dst_norm q) =
      overlapping (pixel_keypoint dst_norm q) (pixel_keypoint dst_norm p)) ->
  overlap_free (harris_nms dst_norm keypoints).
Proof.
  intros Hpairs Hsym. rewrite harris_nms_scan, scan_corner_pixels.
  fold (corner_pixels dst_norm).
  apply scan_overlap_free; [apply overlap_free_nil | intros k [] | exact Hpairs |].
  simpl. intros a b Ha Hb.
  apply in_map_iff in Ha as (p & <- & Hp). apply in_map_iff in Hb as (q & <- & Hq).
  now apply Hsym.
Qed.

(** *** More on the ratio test *)

(** X6.  The loop of lines 63-69 adds at most one match per element of the
    k-nearest-neighbour result, and every match it adds is the first entry of
    a two-entry element whose distances pass the ratio test. *)
Theorem ratio_filter_bounds (kmatches : list (list DMatch)) (matches : list DMatch) :
  (List.length (ratio_filter kmatches matches) <=
   List.length matches + List.length kmatches)%nat /\
  forall m : DMatch,
    In m (ratio_filter kmatches matches) ->
    In m matches \/
    exists m1 : DMatch,
      In [m; m1] kmatches /\ (distance m <? 0.8 * distance m1)%float = true.
Proof.
  rewrite ratio_filter_appends. unfold ratio_filter_spec. split.
  - rewrite length_app. apply Nat.add_le_mono_l.
    induction kmatches as [|kmatch kmatches IH]; simpl; [lia|].
    destruct (passes_ratio_test kmatch) eqn:Hpass; simpl; [|lia].
    apply passes_ratio_test_iff in Hpass as (m0 & m1 & -> & _).
    simpl. lia.
  - intros m Hm. apply in_app_iff in Hm as [Hm|Hm]; [now left|right].
    apply in_flat_map in Hm as (kmatch & Hk & Hbest).
    apply filter_In in Hk as [Hk Hpass].
    apply passes_ratio_test_iff in Hpass as (m0 & m1 & -> & Hlt).
    destruct Hbest as [<-|[]]. now exists m1.
Qed.

(** X7.  When no element of the k-nearest-neighbour result has exactly two
    entries (a reference image with a single descriptor gives one-entry
    elements), the loop of lines 63-69 adds no match at all. *)
Theorem ratio_filter_without_second_neighbour
  (kmatches : list (list DMatch)) (matches : list DMatch) :
  Forall (fun kmatch => List.length kmatch <> 2%nat) kmatches ->
  ratio_filter kmatches matches = matches.
Proof.
  intros Hsizes. rewrite ratio_filter_appends. unfold ratio_filter_spec.
  replace (filter passes_ratio_test kmatches) with (@nil (list DMatch));
    [apply app_nil_r|].
  induction Hsizes as [|kmatch kmatches Hsize _ IH]; simpl; [reflexivity|].
  destruct (passes_ratio_test kmatch) eqn:Hpass; [|exact IH].
  apply passes_ratio_test_iff in Hpass as (m0 & m1 & -> & _).
  now elim Hsize.
Qed.

(** *** The configured matcher *)

(** X8.  [matchDescriptors] gets a matcher exactly for the matcher types
    MAT_BF and MAT_FLANN with the descriptor types DES_BINARY and DES_HOG:
    brute force with the Hamming norm for MAT_BF and DES_BINARY, brute force
    with the L2 norm for MAT_BF and DES_HOG, the FLANN matcher on an LSH index
    with parameters 12, 20, 2 for MAT_FLANN and DES_BINARY, and the default
    FLANN matcher for MAT_FLANN and DES_HOG; cross-checking is never switched
    on.  For every other pair of names the configuration throws, naming the
    matcher type when that is wrong and the descriptor type otherwise. *)
Theorem configure_matcher_choice (descriptorType matcherType : string) :
  configure_matcher "DES_BINARY" "MAT_BF" =
    inl (BFMatcher_create NORM_HAMMING false) /\
  configure_matcher "DES_HOG" "MAT_BF" = inl (BFMatcher_create NORM_L2 false) /\
  configure_matcher "DES_BINARY" "MAT_FLANN" = inl (FlannBasedMatcher_Lsh 12 20 2) /\
  configure_matcher "DES_HOG" "MAT_FLANN" = inl FlannBasedMatcher_create /\
  ((exists matcher : Matcher,
       configure_matcher descriptorType matcherType = inl matcher) <->
   In matcherType ["MAT_BF"; "MAT_FLANN"]%string /\
   In descriptorType ["DES_BINARY"; "DES_HOG"]%string) /\
  match configure_matcher descriptorType matcherType with
  | inl (BFMatcher_create normType check) =>
      matcherType = "MAT_BF"%string /\ check = false /\
      (normType = NORM_HAMMING /\ descriptorType = "DES_BINARY"%string \/
       normType = NORM_L2 /\ descriptorType = "DES_HOG"%string /\
       descriptorType <> "DES_BINARY"%string)
  | inl FlannBasedMatcher_create =>
      matcherType = "MAT_FLANN"%string /\ descriptorType = "DES_HOG"%string
  | inl (FlannBasedMatcher_Lsh table_number key_size multi_probe_level) =>
      matcherType = "MAT_FLANN"%string /\
      descriptorType = "DES_BINARY"%string /\
      (table_number, key_size, multi_probe_level) = (12, 20, 2)
  | inr e =>
      e = (if supported_matcherType matcherType
           then invalid_argument ("invalid descriptorType " ++ descriptorType)%string
           else invalid_argument ("invalid matcherType " ++ matcherType)%string)
  end.
Proof.
  do 4 (split; [reflexivity|]).
  unfold configure_matcher, supported_matcherType, crossCheck.
  repeat match goal with
         | |- context [(?a =? ?b)%string] =>
             destruct (String.eqb_spec a b) as [->|?]
         end; simpl;
    (split;
     [split;
      [intros [matcher Hm]; try discriminate; repeat split; auto
      |intros [[?|[?|[]]] [?|[?|[]]]]; try congruence; eexists; reflexivity]
     |repeat split; auto; try discriminate]).
Qed.

(** *** Calls in sequence *)


(** *** Output *)

Lemma filter_window_app (out added : Trace) :
  existsb is_window_event added = false ->
  filter is_window_event (out ++ added) = filter is_window_event out.
Proof.
  intros Hnone. rewrite filter_app.
  replace (filter is_window_event added) with (@nil Event);
    [apply app_nil_r|].
  induction added as [|e added IH]; simpl in *; [reflexivity|].
  apply orb_false_iff in Hnone as [-> Hrest]. auto.
Qed.

(** X10.  With [bVis = false] none of the three detectors opens a window,
    shows an image or waits for a key, and [descKeypoints] never does: the
    window events of the output are those that were there before the call.
    Each detector prints one line, with the size of the vector it returns. *)
Theorem no_window_without_bVis
  (keypoints : list KeyPoint) (img descriptors : Mat)
  (detectorType descriptorType : string) (out : Trace) :
  let window_events (t : Trace) := filter is_window_event t in
  let shiTomasi := detKeypointsShiTomasi keypoints img false out in
  let harris := detKeypointsHarris keypoints img false out in
  (window_events (snd shiTomasi) = window_events out /\
   snd shiTomasi = out ++ [CoutDetection "Shi-Tomasi" (List.length (fst shiTomasi))]) /\
  (window_events (snd harris) = window_events out /\
   snd harris = out ++ [CoutDetection "Harris" (List.length (fst harris))]) /\
  match detKeypointsModern keypoints img detectorType false out with
  | Returns (keypoints', out') =>
      window_events out' = window_events out /\
      out' = out ++ [CoutDetection detectorType (List.length keypoints')]
  | Throws _ (_, out') => out' = out
  | NullDereference => False
  end /\
  match descKeypoints keypoints img descriptors descriptorType out with
  | Returns (_, _, out') =>
      window_events out' = window_events out /\
      out' = out ++ [CoutExtraction descriptorType]
  | Throws _ (_, _, out') => out' = out
  | NullDereference => True
  end.
Proof.
  cbv zeta. unfold detKeypointsShiTomasi, detKeypointsHarris, detKeypointsModern,
    descKeypoints. simpl.
  repeat split; try (now apply filter_window_app).
  - destruct (select_detector detectorType); [|reflexivity].
    split; [now apply filter_window_app | reflexivity].
  - destruct (select_extractor descriptorType) as [extractor|]; [|exact I].
    destruct (feature_compute extractor img keypoints descriptors).
    split; [now apply filter_window_app | reflexivity].
Qed.

(** *** The model on concrete values *)

Example float_of_int_exact : float_of_int 6 = 6%float /\ int_of_float 100.99 = 100.
Proof. split; reflexivity. Qed.

(** On a 1242 x 375 image the corner budget is 465750 / 4 truncated. *)
Example shiTomasi_maxCorners_kitti :
  shiTomasi_maxCorners (mkMat 375 1242 (fun _ _ => 0%float)) = 116437.
Proof. reflexivity. Qed.

(** A 50000 x 50000 image has more pixels than an [int] holds: the product
    wraps to -1794967296 and the corner budget is negative. *)
Example shiTomasi_maxCorners_wraps :
  int_mul 50000 50000 = -1794967296 /\
  shiTomasi_maxCorners (mkMat 50000 50000 (fun _ _ => 0%float)) = -448741824.
Proof. split; reflexivity. Qed.

(** Column 16777219 is not a binary32 value: [cv::Point2f] holds 16777220. *)
Example float32_of_int_rounds :
  float32_of_int 16777219 = 16777220%float /\
  float32_of_int 16777217 = 16777216%float /\
  float32_of_int 16777216 = 16777216%float /\
  x (pt (harris_keypoint 16777219 0 255)) = 16777220%float.
Proof. repeat split. Qed.

(** The ratio test is strict: distances 4 and 5 fail it, 3.9 and 5 pass. *)
Example ratio_test_boundary :
  passes_ratio_test [mkDMatch 0 0 0 4; mkDMatch 0 1 0 5] = false /\
  passes_ratio_test [mkDMatch 0 0 0 3.9; mkDMatch 0 1 0 5] = true /\
  passes_ratio_test [mkDMatch 0 0 0 1] = false.
Proof. repeat split. Qed.

Example disc_overlap_three_peaks :
  disc_overlap peak_C peak_A = 1%float /\
  disc_overlap peak_C peak_B = 1%float /\
  disc_overlap peak_B peak_A = 0%float.
Proof. repeat split. Qed.

End Tracking.

(** ** The suppression loop on the three peaks *)

(** On [three_peaks] the scan first keeps the peaks A and B of row 0, which
    are 8 pixels apart.  Peak C of row 1 overlaps both; it is weaker than A
    and stronger than B, so it takes the place of B and the scan stops. *)
Lemma harris_nms_three_peaks (overlap : KeyPoint -> KeyPoint -> float) :
  overlapping overlap peak_C peak_A = true ->
  overlapping overlap peak_C peak_B = true ->
  overlapping overlap peak_B peak_A = false ->
  harris_nms overlap three_peaks [] = [peak_A; peak_C].
Proof.
  unfold overlapping. intros HCA HCB HBA.
  cbv in HCA, HCB, HBA. cbv.
  rewrite HBA. cbv. rewrite HCA, HCB. reflexivity.
Qed.

(** C1.  The vector that [detKeypointsHarris] gives back can hold two
    keypoints that overlap.  When the normalized response of the image is
    [three_peaks], and the library's overlap is positive for C with A and for
    C with B and is not positive for B with A (the centres are respectively
    sqrt 17, sqrt 17 and 8 apart, the radii are 3), the result is [A; C]:
    both are kept although their overlap exceeds [maxOverlap = 0.0]. *)
Theorem detKeypointsHarris_keeps_overlapping_pair
  (cornerHarris : Mat -> Z -> Z -> float -> Mat)
  (normalize : Mat -> float -> float -> Mat)
  (convertScaleAbs : Mat -> Mat)
  (drawKeypoints : Mat -> list KeyPoint -> Mat)
  (overlap : KeyPoint -> KeyPoint -> float)
  (keypoints : list KeyPoint) (img : Mat) (bVis : bool) (out : Trace) :
  normalize (cornerHarris img harris_blockSize harris_apertureSize harris_k)
    0%float 255%float = three_peaks ->
  overlapping overlap peak_C peak_A = true ->
  overlapping overlap peak_C peak_B = true ->
  overlapping overlap peak_B peak_A = false ->
  let result :=
    fst (detKeypointsHarris cornerHarris normalize convertScaleAbs drawKeypoints
           overlap keypoints img bVis out) in
  result = [peak_A; peak_C] /\ ~ overlap_free overlap result.
Proof.
  intros Hdst HCA HCB HBA result. subst result.
  rewrite detKeypointsHarris_keypoints, Hdst, harris_nms_clears,
    (harris_nms_three_peaks overlap HCA HCB HBA).
  split; [reflexivity|].
  intros Hfree.
  specialize (Hfree 1%nat 0%nat peak_C peak_A ltac:(discriminate) eq_refl eq_refl).
  congruence.
Qed.

Lemma detKeypointsHarris_keeps_overlapping_pair_witness :
  let result :=
    fst (detKeypointsHarris response_as_image normalized_already same_image
           draw_nothing disc_overlap [] three_peaks false []) in
  result = [peak_A; peak_C] /\ ~ overlap_free disc_overlap result.
Proof.
  apply (detKeypointsHarris_keeps_overlapping_pair response_as_image
           normalized_already same_image draw_nothing disc_overlap
           [] three_peaks false []); reflexivity.
Defined.

Lemma detKeypointsShiTomasi_delegates_witness :
  int_mul 375 1242 = 375 * 1242.
Proof.
  apply (proj2 (proj2 (proj2 (proj2
           (detKeypointsShiTomasi_delegates corner_at_origin draw_nothing []
              (mkMat 375 1242 (fun _ _ => 0%float)) false []))))).
  simpl. unfold INT_MIN, INT_MAX. lia.
Defined.

Lemma detKeypointsHarris_corners_witness :
  harris_pixel disc_overlap three_peaks 0 [peak_A] 1 = [peak_A] /\
  float32_of_int 16777216 = float_of_int 16777216.
Proof.
  pose proof (detKeypointsHarris_corners response_as_image normalized_already
                same_image draw_nothing disc_overlap [] three_peaks false [])
    as (_ & Hlow & Hexact).
  split.
  - apply Hlow. vm_compute. discriminate.
  - apply Hexact. lia.
Defined.

(** ** The conditional properties on concrete data *)

Lemma harris_nms_isolated_corners_witness :
  harris_nms disc_overlap two_peaks [] =
  map (pixel_keypoint two_peaks) (corner_pixels two_peaks).
Proof.
  apply (harris_nms_isolated_corners disc_overlap two_peaks []).
  change (corner_pixels two_peaks) with [(0, 0); (8, 0)].
  intros p q [<-|[<-|[]]] [<-|[<-|[]]] Hpq;
    solve [reflexivity | now elim Hpq].
Defined.

Lemma harris_nms_overlap_free_witness :
  overlap_free disc_overlap (harris_nms disc_overlap descending_peaks []).
Proof.
  apply (harris_nms_overlap_free disc_overlap descending_peaks []).
  - change (corner_pixels descending_peaks) with [(0, 0); (8, 0); (4, 1)].
    repeat constructor.
  - change (corner_pixels descending_peaks) with [(0, 0); (8, 0); (4, 1)].
    intros p q [<-|[<-|[<-|[]]]] [<-|[<-|[<-|[]]]]; reflexivity.
Defined.

Lemma ratio_filter_without_second_neighbour_witness :
  ratio_filter [[mkDMatch 0 0 0 1]; [mkDMatch 1 0 0 2]] [] = [].
Proof.
  apply (ratio_filter_without_second_neighbour
           [[mkDMatch 0 0 0 1]; [mkDMatch 1 0 0 2]] []).
  repeat constructor; simpl; lia.
Defined.
